(** * Coded execution errors of burrow: [execution/errors/errors.go]

    A shallow embedding of the Go package [errors] (error codes, the
    [Exception] value with its constructors and combinators, and the
    [singleError] first-error sink) together with the properties of the
    package that its specification states. *)

From Stdlib Require Import NArith List String Ascii Bool Lia DecimalString DecimalN.
Import ListNotations.

Local Open Scope string_scope.

(** ** Go values used by the package *)

(** A Go call either returns a value or panics at run time (here: a nil
    pointer dereference). *)
Inductive result (A : Type) : Type :=
| Ok (a : A)
| Panic.

Arguments Ok {A} a.
Arguments Panic {A}.

Definition result_bind {A B : Type} (r : result A) (k : A -> result B) : result B :=
  match r with
  | Ok a => k a
  | Panic => Panic
  end.

Declare Scope go_scope.
Delimit Scope go_scope with go.
Notation "x <- r ;; k" := (result_bind r (fun x => k))
  (at level 61, r at next level, right associativity) : go_scope.

(** [type Code uint32].  No arithmetic is done on codes, so a code is the
    natural number it holds; every [uint32] is below [2^32]. *)
Definition Code : Type := N.

(** The [const ( ... iota ... )] block: the declared codes are numbered
    from zero in the order of declaration. *)
Definition ErrorCodeGeneric : Code := 0%N.
Definition ErrorCodeUnknownAddress : Code := 1%N.
Definition ErrorCodeInsufficientBalance : Code := 2%N.
Definition ErrorCodeInvalidJumpDest : Code := 3%N.
Definition ErrorCodeInsufficientGas : Code := 4%N.
Definition ErrorCodeMemoryOutOfBounds : Code := 5%N.
Definition ErrorCodeCodeOutOfBounds : Code := 6%N.
Definition ErrorCodeInputOutOfBounds : Code := 7%N.
Definition ErrorCodeReturnDataOutOfBounds : Code := 8%N.
Definition ErrorCodeCallStackOverflow : Code := 9%N.
Definition ErrorCodeCallStackUnderflow : Code := 10%N.
Definition ErrorCodeDataStackOverflow : Code := 11%N.
Definition ErrorCodeDataStackUnderflow : Code := 12%N.
Definition ErrorCodeInvalidContract : Code := 13%N.
Definition ErrorCodeNativeContractCodeCopy : Code := 14%N.
Definition ErrorCodeExecutionAborted : Code := 15%N.
Definition ErrorCodeExecutionReverted : Code := 16%N.
Definition ErrorCodePermissionDenied : Code := 17%N.
Definition ErrorCodeNativeFunction : Code := 18%N.
Definition ErrorCodeEventPublish : Code := 19%N.
Definition ErrorCodeInvalidString : Code := 20%N.
Definition ErrorCodeEventMapping : Code := 21%N.
Definition ErrorCodeInvalidAddress : Code := 22%N.
Definition ErrorCodeDuplicateAddress : Code := 23%N.
Definition ErrorCodeInsufficientFunds : Code := 24%N.
Definition ErrorCodeOverpayment : Code := 25%N.
Definition ErrorCodeZeroPayment : Code := 26%N.
Definition ErrorCodeInvalidSequence : Code := 27%N.
Definition ErrorCodeReservedAddress : Code := 28%N.
Definition ErrorCodeIllegalWrite : Code := 29%N.
Definition ErrorCodeIntegerOverflow : Code := 30%N.
Definition ErrorCodeInvalidProposal : Code := 31%N.
Definition ErrorCodeExpiredProposal : Code := 32%N.
Definition ErrorCodeProposalExecuted : Code := 33%N.
Definition ErrorCodeNoInputPermission : Code := 34%N.
Definition ErrorCodeAlreadyVoted : Code := 35%N.

(** The last declared code; the declared range is [0 .. 35]. *)
Definition last_declared : Code := ErrorCodeAlreadyVoted.

(** The declared codes in the order of the [const] block. *)
Definition declared_codes : list Code :=
  [ ErrorCodeGeneric; ErrorCodeUnknownAddress; ErrorCodeInsufficientBalance;
    ErrorCodeInvalidJumpDest; ErrorCodeInsufficientGas;
    ErrorCodeMemoryOutOfBounds; ErrorCodeCodeOutOfBounds;
    ErrorCodeInputOutOfBounds; ErrorCodeReturnDataOutOfBounds;
    ErrorCodeCallStackOverflow; ErrorCodeCallStackUnderflow;
    ErrorCodeDataStackOverflow; ErrorCodeDataStackUnderflow;
    ErrorCodeInvalidContract; ErrorCodeNativeContractCodeCopy;
    ErrorCodeExecutionAborted; ErrorCodeExecutionReverted;
    ErrorCodePermissionDenied; ErrorCodeNativeFunction; ErrorCodeEventPublish;
    ErrorCodeInvalidString; ErrorCodeEventMapping; ErrorCodeInvalidAddress;
    ErrorCodeDuplicateAddress; ErrorCodeInsufficientFunds;
    ErrorCodeOverpayment; ErrorCodeZeroPayment; ErrorCodeInvalidSequence;
    ErrorCodeReservedAddress; ErrorCodeIllegalWrite; ErrorCodeIntegerOverflow;
    ErrorCodeInvalidProposal; ErrorCodeExpiredProposal;
    ErrorCodeProposalExecuted; ErrorCodeNoInputPermission;
    ErrorCodeAlreadyVoted ].

(** [func (c Code) ErrorCode() Code] *)
Definition Code_ErrorCode (c : Code) : Code := c.

(** [func (c Code) Uint32() uint32] *)
Definition Code_Uint32 (c : Code) : N := c.

(** A Go [switch c] over constant cases: the arms are tried in order and the
    first whose constant equals [c] returns; [default] when none does. *)
Fixpoint switch (c : Code) (arms : list (Code * string)) (default : string) : string :=
  match arms with
  | [] => default
  | (k, s) :: rest => if N.eqb c k then s else switch c rest default
  end.

(** The arms of [Code.String], in the order of the source. *)
Definition Code_String_arms : list (Code * string) :=
  [ (ErrorCodeUnknownAddress, "Unknown address");
    (ErrorCodeInsufficientBalance, "Insufficient balance");
    (ErrorCodeInvalidJumpDest, "Invalid jump dest");
    (ErrorCodeInsufficientGas, "Insufficient gas");
    (ErrorCodeMemoryOutOfBounds, "Memory out of bounds");
    (ErrorCodeCodeOutOfBounds, "Code out of bounds");
    (ErrorCodeInputOutOfBounds, "Input out of bounds");
    (ErrorCodeReturnDataOutOfBounds, "Return data out of bounds");
    (ErrorCodeCallStackOverflow, "Call stack overflow");
    (ErrorCodeCallStackUnderflow, "Call stack underflow");
    (ErrorCodeDataStackOverflow, "Data stack overflow");
    (ErrorCodeDataStackUnderflow, "Data stack underflow");
    (ErrorCodeInvalidContract, "Invalid contract");
    (ErrorCodePermissionDenied, "Permission denied");
    (ErrorCodeNativeContractCodeCopy, "Tried to copy native contract code");
    (ErrorCodeExecutionAborted, "Execution aborted");
    (ErrorCodeExecutionReverted, "Execution reverted");
    (ErrorCodeNativeFunction, "Native function error");
    (ErrorCodeEventPublish, "Event publish error");
    (ErrorCodeInvalidString, "Invalid string");
    (ErrorCodeEventMapping, "Event mapping error");
    (ErrorCodeGeneric, "Generic error");
    (ErrorCodeInvalidAddress, "Invalid address");
    (ErrorCodeDuplicateAddress, "Duplicate address");
    (ErrorCodeInsufficientFunds, "Insufficient funds");
    (ErrorCodeOverpayment, "Overpayment");
    (ErrorCodeZeroPayment, "Zero payment error");
    (ErrorCodeInvalidSequence, "Invalid sequence number");
    (ErrorCodeReservedAddress, "Address is reserved for SNative or internal use");
    (ErrorCodeIllegalWrite, "Callee attempted to illegally modify state");
    (ErrorCodeIntegerOverflow, "Integer overflow");
    (ErrorCodeInvalidProposal, "Proposal is invalid");
    (ErrorCodeExpiredProposal, "Proposal is expired since sequence number does not match");
    (ErrorCodeProposalExecuted, "Proposal has already been executed");
    (ErrorCodeNoInputPermission, "Account has no input permission");
    (ErrorCodeAlreadyVoted, "Vote already registered for this address") ].

(** [func (c Code) String() string] *)
Definition Code_String (c : Code) : string :=
  switch c Code_String_arms "Unknown error".

(** The verbs of [fmt.Sprintf("Error %d: %s", c, s)]: [%d] prints the
    integer under the named type [Code] in decimal (no method of [Code] is
    consulted for [%d]) and [%s] prints the string as it is. *)
Definition decimal (c : Code) : string :=
  NilZero.string_of_uint (N.to_uint c).

Definition Sprintf_Error_d_s (c : Code) (s : string) : string :=
  "Error " ++ decimal c ++ ": " ++ s.

(** [func (c Code) Error() string] *)
Definition Code_Error (c : Code) : string :=
  Sprintf_Error_d_s c (Code_String c).

(** ** The [Exception] value *)

(** Modelled from the spec: the declaration of [type Exception struct] is not
    in [errors.go] (it is in a generated file of the package).  The spec's
    CodedFailure has the attributes kind and message; [errors.go] reads and
    writes them as the fields [Code] and [Exception]. *)
Record Exception : Type := mkException {
  Exception_Code : Code;
  Exception_Exception : string
}.

(** A [*Exception] is a pointer that may be nil: [None] is the nil pointer.
    The package never writes a field of an existing [Exception] and compares
    pointers only with nil, so a non-nil pointer is the value it points to. *)
Definition ptr_Exception : Type := option Exception.

Definition is_nil_ptr (e : ptr_Exception) : bool :=
  match e with
  | None => true
  | Some _ => false
  end.

(** A value of interface type [error] (or [CodedError]): nil, or a dynamic
    type with its value.  [AsException] distinguishes three dynamic types by
    its type switch: [*Exception] (the pointer may itself be nil), any other
    type with the methods of [CodedError] (given by what [ErrorCode()] and
    [Error()] return), and any other type (given by what [Error()] returns). *)
Inductive error : Type :=
| error_nil
| dyn_Exception (e : ptr_Exception)
| dyn_CodedError (code : Code) (msg : string)
| dyn_error (msg : string).

(** [Code] itself has the methods of [CodedError]. *)
Definition Code_as_error (c : Code) : error :=
  dyn_CodedError (Code_ErrorCode c) (Code_Error c).

(** [err == nil] on an interface value: a nil [*Exception] inside an
    interface is not the nil interface. *)
Definition is_nil (err : error) : bool :=
  match err with
  | error_nil => true
  | _ => false
  end.

(** [func NewException(errorCode Code, exception string) *Exception] *)
Definition NewException (errorCode : Code) (exception : string) : ptr_Exception :=
  if String.eqb exception "" then None
  else Some {| Exception_Code := errorCode; Exception_Exception := exception |}.

(** [func AsException(err error) *Exception] *)
Definition AsException (err : error) : ptr_Exception :=
  if is_nil err then None
  else
    match err with
    | dyn_Exception e => e
    | dyn_CodedError code msg => NewException code msg
    | dyn_error msg => NewException ErrorCodeGeneric msg
    | error_nil => None
    end.

(** [func (e *Exception) AsError() error] *)
Definition Exception_AsError (e : ptr_Exception) : error :=
  if is_nil_ptr e then error_nil else dyn_Exception e.

(** [func (e *Exception) ErrorCode() Code]: reads [e.Code] with no nil check,
    so a nil receiver panics. *)
Definition Exception_ErrorCode (e : ptr_Exception) : result Code :=
  match e with
  | Some x => Ok (Exception_Code x)
  | None => Panic
  end.

(** [func (e *Exception) String() string]: reads [e.Code] and [e.Exception]
    with no nil check. *)
Definition Exception_String (e : ptr_Exception) : result string :=
  match e with
  | Some x => Ok (Sprintf_Error_d_s (Exception_Code x) (Exception_Exception x))
  | None => Panic
  end.

(** [func (e *Exception) Error() string] *)
Definition Exception_Error (e : ptr_Exception) : string :=
  match e with
  | None => ""
  | Some x => Exception_Exception x
  end.

(** [func Wrap(err error, message string) *Exception]: the arguments of the
    call to [NewException] are evaluated left to right. *)
Definition Wrap (err : error) (message : string) : result ptr_Exception :=
  let ex := AsException err in
  (code <- Exception_ErrorCode ex ;;
   Ok (NewException code (message ++ ": " ++ Exception_Error ex)))%go.

(** [func (e *Exception) Equal(ce CodedError) bool] *)
Definition Exception_Equal (e : ptr_Exception) (ce : error) : bool :=
  let ex := AsException ce in
  match e, ex with
  | Some x, Some y =>
      N.eqb (Exception_Code x) (Exception_Code y)
      && String.eqb (Exception_Exception x) (Exception_Exception y)
  | _, _ => is_nil_ptr e && is_nil_ptr ex
  end.

(** [fmt.Sprintf] with an arbitrary format belongs to the Go library: the
    formatting functions are taken over any [Sprintf]. *)
Section Formatted.

Variable any : Type.
Variable Sprintf : string -> list any -> string.

(** [func ErrorCodef(errorCode Code, format string, a ...interface{}) *Exception] *)
Definition ErrorCodef (errorCode : Code) (format : string) (a : list any) : ptr_Exception :=
  NewException errorCode (Sprintf format a).

(** [func Errorf(format string, a ...interface{}) *Exception] *)
Definition Errorf (format : string) (a : list any) : ptr_Exception :=
  ErrorCodef ErrorCodeGeneric format a.

End Formatted.

(** ** The first-error sink [singleError] *)

(** A method with a pointer receiver of type [*T] is a computation over the
    receiver's state: it returns a value and the state it leaves. *)
Definition method (T A : Type) : Type := T -> A * T.

Definition ret {T A : Type} (a : A) : method T A := fun s => (a, s).

Definition bind {T A B : Type} (m : method T A) (k : A -> method T B) : method T B :=
  fun s => let (a, s') := m s in k a s'.

Definition exec {T A : Type} (m : method T A) (s : T) : T := snd (m s).

Definition eval {T A : Type} (m : method T A) (s : T) : A := fst (m s).

Declare Scope method_scope.
Delimit Scope method_scope with method.
Notation "m1 >> m2" := (bind m1 (fun _ => m2))
  (at level 62, right associativity) : method_scope.

(** The interfaces [Provider] and [Sink]. *)
Class Provider (T : Type) : Type := { Error : method T error }.

Class Sink (T : Type) : Type := { PushError : error -> method T unit }.

(** [type singleError struct { CodedError }]: one embedded interface field. *)
Record singleError : Type := mkSingleError { CodedError : error }.

(** [func FirstOnly() *singleError]: the zero struct, its field is nil. *)
Definition FirstOnly : singleError := {| CodedError := error_nil |}.

(** [func (se *singleError) PushError(err error)] *)
Definition singleError_PushError (err : error) : method singleError unit :=
  fun se =>
    if is_nil (CodedError se) then
      let ex := AsException err in
      if negb (is_nil_ptr ex) then (tt, {| CodedError := dyn_Exception ex |})
      else (tt, se)
    else (tt, se).

(** [func (se *singleError) Error() CodedError] *)
Definition singleError_Error : method singleError error :=
  fun se => (CodedError se, se).

(** [func (se *singleError) Reset()] *)
Definition singleError_Reset : method singleError unit :=
  fun se => (tt, {| CodedError := error_nil |}).

#[export] Instance singleError_Sink : Sink singleError :=
  {| PushError := singleError_PushError |}.

#[export] Instance singleError_Provider : Provider singleError :=
  {| Error := singleError_Error |}.

(** A run of calls on one sink. *)
Fixpoint push_all {T : Type} `{Sink T} (errs : list error) : method T unit :=
  match errs with
  | [] => ret tt
  | err :: rest => (PushError err >> push_all rest)%method
  end.

(** The calls a client can make on a [*singleError], and a trace of them. *)
Inductive call : Type :=
| call_PushError (err : error)
| call_Error
| call_Reset.

Definition do_call (c : call) : method singleError unit :=
  match c with
  | call_PushError err => singleError_PushError err
  | call_Error => (singleError_Error >> ret tt)%method
  | call_Reset => singleError_Reset
  end.

Fixpoint do_calls (cs : list call) : method singleError unit :=
  match cs with
  | [] => ret tt
  | c :: rest => (do_call c >> do_calls rest)%method
  end.

(** The two states of the specification's latch, as states of the struct. *)
Definition Empty : singleError := {| CodedError := error_nil |}.

Definition Latched (f : Exception) : singleError :=
  {| CodedError := dyn_Exception (Some f) |}.

(** ** Notions used to state the properties *)

(** A possibly-nil [*Exception] passed where a [CodedError] (or [error]) is
    expected: Go wraps the pointer, nil or not, in an interface value. *)
Definition to_CodedError (e : ptr_Exception) : error := dyn_Exception e.

(** Absent, or present with a message that is not empty. *)
Definition nonempty_or_absent (e : ptr_Exception) : Prop :=
  match e with
  | None => True
  | Some x => Exception_Exception x <> ""
  end.

(** [t] occurs in [s] as a contiguous piece. *)
Definition occurs_in (t s : string) : bool :=
  match index 0 t s with
  | Some _ => true
  | None => false
  end.

(** Wrapping in layers: [Wrap(... Wrap(Wrap(e, c1), c2) ..., cn)], each
    result passed on as the [error] argument of the next call. *)
Fixpoint Wrap_layers (e : ptr_Exception) (ctxs : list string) : result ptr_Exception :=
  match ctxs with
  | [] => Ok e
  | ctx :: rest =>
      (e' <- Wrap (to_CodedError e) ctx ;; Wrap_layers e' rest)%go
  end.

(** The message under the layers [ctxs], innermost first. *)
Fixpoint layered_message (msg : string) (ctxs : list string) : string :=
  match ctxs with
  | [] => msg
  | ctx :: rest => layered_message (ctx ++ ": " ++ msg) rest
  end.

(** No two declared codes share a description, and none is described by the
    empty string or by the default of the switch. *)
Definition descriptions_checked : bool :=
  forallb (fun c1 =>
    negb (String.eqb (Code_String c1) "")
    && negb (String.eqb (Code_String c1) "Unknown error")
    && forallb (fun c2 =>
         implb (String.eqb (Code_String c1) (Code_String c2)) (N.eqb c1 c2))
         declared_codes)
    declared_codes.

(** The state of the sink that holds [e]: Empty for nil. *)
Definition state_of (e : ptr_Exception) : singleError :=
  match e with
  | Some f => Latched f
  | None => Empty
  end.

(** The first value of a run that [AsException] coerces to a present
    [Exception], coerced; nil when there is none. *)
Fixpoint first_present (errs : list error) : ptr_Exception :=
  match errs with
  | [] => None
  | err :: rest =>
      match AsException err with
      | Some f => Some f
      | None => first_present rest
      end
  end.

(** The calls of a trace that can change the state: all but [Error()]. *)
Definition changes_state (c : call) : bool :=
  match c with
  | call_Error => false
  | _ => true
  end.

(** No character of [s] is the colon. *)
Fixpoint no_colon (s : string) : Prop :=
  match s with
  | EmptyString => True
  | String a rest => a <> ":"%char /\ no_colon rest
  end.

(** Reading a decimal numeral back. *)
Definition parse_decimal (s : string) : option N :=
  option_map N.of_uint (NilZero.uint_of_string s).

(** * Properties *)

(** ** Error codes and their descriptions *)

Lemma switch_default (c : Code) (arms : list (Code * string)) (d : string) :
  ~ In c (map fst arms) -> switch c arms d = d.
Proof.
  induction arms as [| [k s] rest IH]; simpl; intros Hnot.
  - reflexivity.
  - destruct (N.eqb_spec c k) as [-> | _].
    + exfalso. apply Hnot. now left.
    + apply IH. intros Hin. apply Hnot. now right.
Qed.

Lemma switch_arm (c : Code) (arms : list (Code * string)) (d : string) :
  In c (map fst arms) -> In (c, switch c arms d) arms.
Proof.
  induction arms as [| [k s] rest IH]; simpl; intros Hin.
  - contradiction.
  - destruct (N.eqb_spec c k) as [-> | Hne].
    + now left.
    + right. apply IH. destruct Hin as [Heq | Hin]; [congruence | exact Hin].
Qed.

(** The declared codes are exactly the numbers [0 .. 35]. *)
Lemma declared_codes_range (c : Code) :
  In c declared_codes <-> (c <= last_declared)%N.
Proof.
  split.
  - unfold declared_codes, last_declared. simpl.
    intros H.
    repeat (destruct H as [<- | H]; [vm_compute; discriminate |]).
    contradiction.
  - intros Hle.
    assert (Hn : exists n : nat, n < 36 /\ c = N.of_nat n).
    { exists (N.to_nat c). split.
      - unfold last_declared, ErrorCodeAlreadyVoted in Hle. lia.
      - now rewrite N2Nat.id. }
    destruct Hn as (n & Hlt & ->).
    do 36 (destruct n as [| n]; [vm_compute; tauto |]).
    lia.
Qed.

(** Every declared code has an arm in [Code.String]. *)
Lemma declared_codes_have_arms (c : Code) :
  In c declared_codes <-> In c (map fst Code_String_arms).
Proof.
  split; intros H.
  - apply declared_codes_range in H.
    assert (Hn : exists n : nat, n < 36 /\ c = N.of_nat n).
    { exists (N.to_nat c). split.
      - unfold last_declared, ErrorCodeAlreadyVoted in H. lia.
      - now rewrite N2Nat.id. }
    destruct Hn as (n & Hlt & ->).
    do 36 (destruct n as [| n]; [vm_compute; tauto |]).
    lia.
  - apply declared_codes_range.
    simpl in H.
    repeat (destruct H as [<- | H]; [vm_compute; discriminate |]).
    contradiction.
Qed.

Lemma descriptions_checked_true : descriptions_checked = true.
Proof. vm_compute. reflexivity. Qed.

Lemma declared_description (c1 : Code) :
  In c1 declared_codes ->
  Code_String c1 <> "" /\ Code_String c1 <> "Unknown error" /\
  forall c2, In c2 declared_codes -> Code_String c1 = Code_String c2 -> c1 = c2.
Proof.
  intros H1.
  pose proof descriptions_checked_true as Hall.
  unfold descriptions_checked in Hall.
  rewrite forallb_forall in Hall.
  specialize (Hall c1 H1).
  apply andb_true_iff in Hall. destruct Hall as [Hne Hinj].
  apply andb_true_iff in Hne. destruct Hne as [Hempty Hunknown].
  apply negb_true_iff in Hempty, Hunknown.
  apply String.eqb_neq in Hempty, Hunknown.
  repeat split; try assumption.
  intros c2 H2 Heq.
  rewrite forallb_forall in Hinj.
  specialize (Hinj c2 H2).
  rewrite Heq, String.eqb_refl in Hinj. simpl in Hinj.
  now apply N.eqb_eq.
Qed.

(** C8: [Code.String] (describe) is a total function of the numeric code.
    For every declared code (0 to 35) it returns a string that is not empty
    and is not the default string, distinct declared codes get distinct
    strings, and for every number above the declared range it returns the
    fixed string "Unknown error". *)
Theorem Code_String_describes_codes :
  (forall c : Code, (c <= last_declared)%N ->
     Code_String c <> "" /\ Code_String c <> "Unknown error") /\
  (forall c1 c2 : Code, (c1 <= last_declared)%N -> (c2 <= last_declared)%N ->
     c1 <> c2 -> Code_String c1 <> Code_String c2) /\
  (forall c : Code, (last_declared < c)%N -> Code_String c = "Unknown error").
Proof.
  split; [| split].
  - intros c Hc. apply declared_codes_range in Hc.
    destruct (declared_description c Hc) as (H1 & H2 & _). now split.
  - intros c1 c2 H1 H2 Hne Heq.
    apply declared_codes_range in H1, H2.
    destruct (declared_description c1 H1) as (_ & _ & Hinj).
    apply Hne. now apply Hinj.
  - intros c Hc. unfold Code_String. apply switch_default.
    intros Hin. apply declared_codes_have_arms, declared_codes_range in Hin. lia.
Qed.

Lemma Code_String_describes_codes_witness :
  (Code_String ErrorCodeInsufficientGas <> ""
   /\ Code_String ErrorCodeInsufficientGas <> "Unknown error")
  /\ Code_String ErrorCodeExecutionAborted <> Code_String ErrorCodeExecutionReverted
  /\ Code_String 36%N = "Unknown error".
Proof.
  destruct Code_String_describes_codes as (Hdecl & Hinj & Hout).
  split; [| split].
  - apply Hdecl. vm_compute. discriminate.
  - apply Hinj; [vm_compute; discriminate | vm_compute; discriminate | discriminate].
  - apply Hout. vm_compute. reflexivity.
Defined.

(** ** Constructors *)

Lemma length_append (s t : string) :
  String.length (s ++ t) = String.length s + String.length t.
Proof.
  induction s as [| a s IH]; simpl.
  - reflexivity.
  - now rewrite IH.
Qed.

Lemma prefixed_not_empty (message diag : string) :
  message ++ ": " ++ diag <> "".
Proof.
  intros H. apply (f_equal String.length) in H.
  rewrite !length_append in H. simpl in H. lia.
Qed.

Lemma NewException_empty (k : Code) : NewException k "" = None.
Proof. reflexivity. Qed.

Lemma NewException_present (k : Code) (m : string) :
  m <> "" ->
  NewException k m = Some {| Exception_Code := k; Exception_Exception := m |}.
Proof.
  intros Hm. unfold NewException.
  destruct (String.eqb_spec m "") as [Heq | _]; [contradiction | reflexivity].
Qed.

Lemma NewException_nonempty_or_absent (k : Code) (m : string) :
  nonempty_or_absent (NewException k m).
Proof.
  unfold NewException.
  destruct (String.eqb_spec m "") as [_ | Hne]; simpl; [exact I | exact Hne].
Qed.

(** C5: for every code [k] and message [m], [NewException k m] is nil exactly
    when [m] is the empty string, and otherwise it is a present [Exception]
    holding exactly [k] and [m], the message unchanged. *)
Theorem NewException_absent_iff_empty (k : Code) (m : string) :
  (NewException k m = None <-> m = "") /\
  (m <> "" ->
   NewException k m = Some {| Exception_Code := k; Exception_Exception := m |}).
Proof.
  split; [split |].
  - intros Hnone. destruct (String.eqb_spec m "") as [Heq | Hne]; [exact Heq |].
    rewrite (NewException_present k m Hne) in Hnone. discriminate.
  - intros ->. apply NewException_empty.
  - apply NewException_present.
Qed.

Lemma NewException_absent_iff_empty_witness :
  (NewException ErrorCodeInsufficientGas "" = None)
  /\ NewException ErrorCodeInsufficientGas "gas exhausted"
     = Some {| Exception_Code := ErrorCodeInsufficientGas;
               Exception_Exception := "gas exhausted" |}.
Proof.
  split.
  - apply (proj1 (NewException_absent_iff_empty ErrorCodeInsufficientGas "")).
    reflexivity.
  - apply (proj2 (NewException_absent_iff_empty ErrorCodeInsufficientGas "gas exhausted")).
    discriminate.
Defined.

(** C4, as the specification states it, fails where the diagnostic text is
    empty: a plain error whose [Error()] is the empty string is coerced to
    nil, not to an [Exception] of the generic code with that text. *)
Lemma AsException_plain_empty_is_absent :
  AsException (dyn_error "") = None
  /\ AsException (dyn_error "")
     <> Some {| Exception_Code := ErrorCodeGeneric; Exception_Exception := "" |}.
Proof. split; [reflexivity | discriminate]. Qed.

(** C4 (amended): [AsException] maps the nil interface to nil; it returns a
    [*Exception] argument as it is (a nil pointer stays nil, a present
    [Exception] keeps its code and message exactly); for any other value with
    an error code it returns an [Exception] with that code and the value's
    diagnostic text when the text is not empty, and nil when it is empty; and
    for any other error value it returns an [Exception] with the generic code
    and the value's diagnostic text when the text is not empty, and nil when
    it is empty. *)
Theorem AsException_by_dynamic_type :
  AsException error_nil = None /\
  (forall e : ptr_Exception, AsException (dyn_Exception e) = e) /\
  (forall (k : Code) (m : string), m <> "" ->
     AsException (dyn_CodedError k m)
     = Some {| Exception_Code := k; Exception_Exception := m |}) /\
  (forall k : Code, AsException (dyn_CodedError k "") = None) /\
  (forall m : string, m <> "" ->
     AsException (dyn_error m)
     = Some {| Exception_Code := ErrorCodeGeneric; Exception_Exception := m |}) /\
  AsException (dyn_error "") = None.
Proof.
  repeat split.
  - intros k m Hm. simpl. now apply NewException_present.
  - intros m Hm. simpl. now apply NewException_present.
Qed.

Lemma AsException_by_dynamic_type_witness :
  AsException (dyn_CodedError ErrorCodeInvalidJumpDest "bad jump")
  = Some {| Exception_Code := ErrorCodeInvalidJumpDest;
            Exception_Exception := "bad jump" |}
  /\ AsException (dyn_error "boom")
     = Some {| Exception_Code := ErrorCodeGeneric; Exception_Exception := "boom" |}.
Proof.
  destruct AsException_by_dynamic_type as (_ & _ & Hcoded & _ & Hplain & _).
  split.
  - apply Hcoded. discriminate.
  - apply Hplain. discriminate.
Defined.

(** ** Wrapping *)

(** [Wrap] returns exactly when its argument coerces to a present
    [Exception]; otherwise the call of [ErrorCode] on the nil pointer
    panics. *)
Lemma Wrap_of_present (err : error) (f : Exception) (message : string) :
  AsException err = Some f ->
  Wrap err message
  = Ok (Some {| Exception_Code := Exception_Code f;
                Exception_Exception := message ++ ": " ++ Exception_Exception f |}).
Proof.
  intros Hf. unfold Wrap. rewrite Hf. simpl.
  rewrite NewException_present by apply prefixed_not_empty.
  reflexivity.
Qed.

Lemma Wrap_of_absent (err : error) (message : string) :
  AsException err = None -> Wrap err message = Panic.
Proof. intros Hnone. unfold Wrap. now rewrite Hnone. Qed.

(** C3: what the code does when [Wrap] is applied to a value that coerces to
    nil.  The message of the nil [*Exception] is the empty string, but
    reading its code is a nil pointer dereference, so [Wrap] panics: on the
    nil interface, on a nil [*Exception] and on an error whose text is
    empty; no [Exception] of the generic code with message "ctx: " is
    returned. *)
Theorem Wrap_of_nil_panics :
  Exception_Error None = ""
  /\ Exception_ErrorCode None = Panic
  /\ Wrap error_nil "ctx" = Panic
  /\ Wrap (dyn_Exception None) "ctx" = Panic
  /\ Wrap (dyn_error "") "ctx" = Panic
  /\ Wrap error_nil "ctx"
     <> Ok (Some {| Exception_Code := ErrorCodeGeneric;
                    Exception_Exception := "ctx: " |}).
Proof. repeat split; discriminate. Qed.

Lemma Wrap_layers_present (ctxs : list string) :
  forall f : Exception,
    Wrap_layers (Some f) ctxs
    = Ok (Some {| Exception_Code := Exception_Code f;
                  Exception_Exception :=
                    layered_message (Exception_Exception f) ctxs |}).
Proof.
  induction ctxs as [| ctx rest IH]; intros f; cbn [Wrap_layers layered_message].
  - now destruct f.
  - rewrite (Wrap_of_present (to_CodedError (Some f)) f ctx) by reflexivity.
    cbn [result_bind]. now rewrite IH.
Qed.

(** C6: for every present failure [f] (a value that [AsException] coerces to
    the present [Exception] [f]) and every prefix [ctx], [Wrap] returns a
    present [Exception] with the code of [f] and the message
    [ctx ++ ": " ++] the message of [f]; and through any number of layers of
    [Wrap] the result is present and still has the code of [f]. *)
Theorem Wrap_preserves_kind :
  (forall (err : error) (f : Exception) (ctx : string),
     AsException err = Some f ->
     Wrap err ctx
     = Ok (Some {| Exception_Code := Exception_Code f;
                   Exception_Exception := ctx ++ ": " ++ Exception_Exception f |})) /\
  (forall (f : Exception) (ctx : string),
     Wrap (to_CodedError (Some f)) ctx
     = Ok (Some {| Exception_Code := Exception_Code f;
                   Exception_Exception := ctx ++ ": " ++ Exception_Exception f |})) /\
  (forall (f : Exception) (ctxs : list string),
     exists g : Exception,
       Wrap_layers (Some f) ctxs = Ok (Some g)
       /\ Exception_Code g = Exception_Code f
       /\ Exception_Exception g = layered_message (Exception_Exception f) ctxs).
Proof.
  split; [| split].
  - intros err f ctx Hf. now apply Wrap_of_present.
  - intros f ctx. now apply Wrap_of_present.
  - intros f ctxs. eexists. split; [apply Wrap_layers_present |].
    simpl. split; reflexivity.
Qed.

Lemma Wrap_preserves_kind_witness :
  Wrap (dyn_CodedError ErrorCodeExecutionReverted "reverted") "call"
  = Ok (Some {| Exception_Code := ErrorCodeExecutionReverted;
                Exception_Exception := "call: reverted" |}).
Proof.
  apply (proj1 Wrap_preserves_kind (dyn_CodedError ErrorCodeExecutionReverted "reverted")
           {| Exception_Code := ErrorCodeExecutionReverted;
              Exception_Exception := "reverted" |} "call").
  reflexivity.
Defined.

(** ** Messages of constructed values *)

(** C10, as stated, fails for [AsException]: a present [*Exception] whose
    message is empty (a struct literal, or a decoded message) comes back as it
    is, present with an empty message. *)
Lemma AsException_returns_empty_message :
  AsException (dyn_Exception
                 (Some {| Exception_Code := ErrorCodeUnknownAddress;
                          Exception_Exception := "" |}))
  = Some {| Exception_Code := ErrorCodeUnknownAddress; Exception_Exception := "" |}
  /\ ~ nonempty_or_absent
         (AsException (dyn_Exception
                         (Some {| Exception_Code := ErrorCodeUnknownAddress;
                                  Exception_Exception := "" |}))).
Proof.
  split; [reflexivity |].
  simpl. intros H. now apply H.
Qed.

(** C10 (amended): every value returned by [NewException], [ErrorCodef],
    [Errorf] or (when it returns) [Wrap] is nil or a present [Exception] with
    a message that is not empty, and a returned [Wrap] is never nil;
    [AsException] returns such a value for every argument other than a
    present [*Exception] whose message is empty, which it returns as it is. *)
Theorem constructors_nonempty_or_absent :
  (forall (k : Code) (m : string), nonempty_or_absent (NewException k m)) /\
  (forall (any : Type) (Sprintf : string -> list any -> string)
          (k : Code) (format : string) (a : list any),
     nonempty_or_absent (ErrorCodef any Sprintf k format a)
     /\ nonempty_or_absent (Errorf any Sprintf format a)) /\
  (forall (err : error) (message : string) (r : ptr_Exception),
     Wrap err message = Ok r ->
     exists g : Exception, r = Some g /\ Exception_Exception g <> "") /\
  (forall err : error,
     (forall f : Exception,
        err = dyn_Exception (Some f) -> Exception_Exception f <> "") ->
     nonempty_or_absent (AsException err)) /\
  (forall f : Exception,
     AsException (dyn_Exception (Some f)) = Some f).
Proof.
  split; [| split; [| split; [| split]]].
  - apply NewException_nonempty_or_absent.
  - intros any Sprintf k format a. split; apply NewException_nonempty_or_absent.
  - intros err message r Hr.
    destruct (AsException err) as [f |] eqn:Hf.
    + rewrite (Wrap_of_present err f message Hf) in Hr.
      injection Hr as <-. eexists. split; [reflexivity |].
      simpl. apply prefixed_not_empty.
    + rewrite (Wrap_of_absent err message Hf) in Hr. discriminate.
  - intros err Hptr. destruct err as [| [f |] | k m | m]; simpl.
    + exact I.
    + now apply Hptr.
    + exact I.
    + apply NewException_nonempty_or_absent.
    + apply NewException_nonempty_or_absent.
  - reflexivity.
Qed.

Lemma constructors_nonempty_or_absent_witness :
  (exists g : Exception,
     Some {| Exception_Code := ErrorCodeGeneric; Exception_Exception := "ctx: boom" |}
     = Some g /\ Exception_Exception g <> "")
  /\ nonempty_or_absent (AsException (dyn_error "boom")).
Proof.
  destruct constructors_nonempty_or_absent as (_ & _ & Hwrap & Has & _).
  split.
  - apply (Hwrap (dyn_error "boom") "ctx"). reflexivity.
  - apply Has. intros f Hf. discriminate Hf.
Defined.

(** ** Equality *)

Lemma Exception_eta (x y : Exception) :
  Exception_Code x = Exception_Code y ->
  Exception_Exception x = Exception_Exception y ->
  x = y.
Proof. destruct x, y; simpl; intros -> ->; reflexivity. Qed.

(** On two possibly-nil [*Exception] values [Equal] decides equality of the
    values. *)
Lemma Exception_Equal_decides (a b : ptr_Exception) :
  Exception_Equal a (to_CodedError b) = true <-> a = b.
Proof.
  unfold Exception_Equal, to_CodedError. simpl.
  destruct a as [x |], b as [y |]; simpl; split; intros H;
    try reflexivity; try discriminate.
  - apply andb_true_iff in H. destruct H as [Hc Hm].
    apply N.eqb_eq in Hc. apply String.eqb_eq in Hm.
    f_equal. now apply Exception_eta.
  - injection H as <-. now rewrite N.eqb_refl, String.eqb_refl.
Qed.

Lemma Exception_Equal_false (a b : ptr_Exception) :
  Exception_Equal a (to_CodedError b) = false <-> a <> b.
Proof.
  rewrite <- Exception_Equal_decides.
  destruct (Exception_Equal a (to_CodedError b)); split; intros H;
    try reflexivity; try discriminate; try congruence.
Qed.

(** C7: [Equal] on possibly-nil failures is true exactly when both are nil or
    both are present with the same code and the same message; a nil argument
    may be the nil interface or a nil pointer inside an interface; [Equal] is
    reflexive, symmetric and transitive; nil equals nil; nil and a present
    failure are unequal in both orders; and two present failures that differ
    in code or in message are unequal. *)
Theorem Exception_Equal_equivalence :
  (forall a b : ptr_Exception,
     Exception_Equal a (to_CodedError b) = true <->
     (a = None /\ b = None) \/
     (exists x y : Exception,
        a = Some x /\ b = Some y
        /\ Exception_Code x = Exception_Code y
        /\ Exception_Exception x = Exception_Exception y)) /\
  (forall a b : ptr_Exception,
     Exception_Equal a (Exception_AsError b) = Exception_Equal a (to_CodedError b)) /\
  (forall a : ptr_Exception, Exception_Equal a (to_CodedError a) = true) /\
  (forall a b : ptr_Exception,
     Exception_Equal a (to_CodedError b) = Exception_Equal b (to_CodedError a)) /\
  (forall a b c : ptr_Exception,
     Exception_Equal a (to_CodedError b) = true ->
     Exception_Equal b (to_CodedError c) = true ->
     Exception_Equal a (to_CodedError c) = true) /\
  Exception_Equal None (to_CodedError None) = true /\
  (forall x : Exception,
     Exception_Equal None (to_CodedError (Some x)) = false
     /\ Exception_Equal (Some x) (to_CodedError None) = false) /\
  (forall x y : Exception,
     Exception_Code x <> Exception_Code y
     \/ Exception_Exception x <> Exception_Exception y ->
     Exception_Equal (Some x) (to_CodedError (Some y)) = false).
Proof.
  repeat match goal with |- _ /\ _ => split end.
  - intros a b. rewrite Exception_Equal_decides. split.
    + intros <-. destruct a as [x |].
      * right. exists x, x. repeat split; reflexivity.
      * left. split; reflexivity.
    + intros [[-> ->] | (x & y & -> & -> & Hc & Hm)].
      * reflexivity.
      * f_equal. now apply Exception_eta.
  - intros a [y |]; reflexivity.
  - intros a. now apply Exception_Equal_decides.
  - intros a b.
    destruct (Exception_Equal b (to_CodedError a)) eqn:Hba.
    + apply Exception_Equal_decides in Hba. subst b.
      now apply Exception_Equal_decides.
    + apply Exception_Equal_false in Hba. apply Exception_Equal_false. congruence.
  - intros a b c Hab Hbc.
    apply Exception_Equal_decides in Hab, Hbc.
    apply Exception_Equal_decides. congruence.
  - reflexivity.
  - intros x. split; reflexivity.
  - intros x y Hdiff. apply Exception_Equal_false.
    intros Heq. injection Heq as ->. destruct Hdiff as [H | H]; now apply H.
Qed.

Lemma Exception_Equal_equivalence_witness :
  Exception_Equal
    (Some {| Exception_Code := ErrorCodeInsufficientGas; Exception_Exception := "gas" |})
    (to_CodedError
       (Some {| Exception_Code := ErrorCodeInsufficientGas; Exception_Exception := "gas" |}))
  = true
  /\ Exception_Equal
       (Some {| Exception_Code := ErrorCodeInsufficientGas; Exception_Exception := "gas" |})
       (to_CodedError
          (Some {| Exception_Code := ErrorCodeCallStackOverflow;
                   Exception_Exception := "gas" |}))
     = false.
Proof.
  destruct Exception_Equal_equivalence
    as (_ & _ & Hrefl & _ & Htrans & _ & _ & Hdiff).
  split.
  - apply (Htrans _ (Some {| Exception_Code := ErrorCodeInsufficientGas;
                             Exception_Exception := "gas" |}));
      apply Hrefl.
  - apply Hdiff. left. simpl. discriminate.
Defined.

(** ** Diagnostic and debug strings *)

(** C9, as stated, fails for the debug string: [Exception.String] prints the
    number of the code and the failure's message; the description of the code
    does not occur in it. *)
Lemma Exception_String_lacks_description :
  Exception_String
    (Some {| Exception_Code := ErrorCodeInsufficientGas;
             Exception_Exception := "gas exhausted" |})
  = Ok "Error 4: gas exhausted"
  /\ Code_String ErrorCodeInsufficientGas = "Insufficient gas"
  /\ occurs_in (Code_String ErrorCodeInsufficientGas) "Error 4: gas exhausted" = false.
Proof. repeat split. Qed.

(** C9 (amended): for every present [Exception] the diagnostic string
    [Error()] is exactly its message, and the debug string [String()] is
    "Error ", the code in decimal, ": " and the message, which is never the
    diagnostic string itself.  (The form with the description of the code is
    [Error()] of a bare [Code].) *)
Theorem Exception_Error_is_message (e : Exception) :
  Exception_Error (Some e) = Exception_Exception e
  /\ Exception_String (Some e)
     = Ok ("Error " ++ decimal (Exception_Code e) ++ ": " ++ Exception_Exception e)
  /\ Exception_String (Some e) <> Ok (Exception_Error (Some e))
  /\ Code_Error (Exception_Code e)
     = "Error " ++ decimal (Exception_Code e) ++ ": " ++ Code_String (Exception_Code e).
Proof.
  repeat split.
  cbn [Exception_String Exception_Error]. unfold Sprintf_Error_d_s.
  intros H. injection H as H.
  apply (f_equal String.length) in H.
  cbn [String.length] in H. rewrite length_append in H.
  cbn [String.length] in H. lia.
Qed.

(** ** The first-error sink *)

Lemma exec_bind {T A B : Type} (m : method T A) (k : A -> method T B) (s : T) :
  exec (bind m k) s = exec (k (eval m s)) (exec m s).
Proof. unfold exec, eval, bind. now destruct (m s). Qed.

Lemma eval_bind {T A B : Type} (m : method T A) (k : A -> method T B) (s : T) :
  eval (bind m k) s = eval (k (eval m s)) (exec m s).
Proof. unfold exec, eval, bind. now destruct (m s). Qed.

Lemma PushError_Empty (err : error) :
  exec (PushError err) Empty
  = match AsException err with
    | Some f => Latched f
    | None => Empty
    end.
Proof.
  unfold exec, PushError, singleError_Sink, singleError_PushError. simpl.
  now destruct (AsException err).
Qed.

Lemma PushError_Latched (err : error) (f : Exception) :
  PushError err (Latched f) = (tt, Latched f).
Proof. reflexivity. Qed.

Lemma Reset_any (se : singleError) : exec singleError_Reset se = Empty.
Proof. reflexivity. Qed.

(** The states of the struct that a client can reach. *)
Lemma do_calls_invariant (cs : list call) :
  forall se : singleError,
    (se = Empty \/ exists f : Exception, se = Latched f) ->
    exec (do_calls cs) se = Empty
    \/ exists f : Exception, exec (do_calls cs) se = Latched f.
Proof.
  induction cs as [| c rest IH]; intros se Hse.
  - exact Hse.
  - cbn [do_calls]. rewrite exec_bind. apply IH.
    destruct c as [err | |]; cbn [do_call].
    + destruct Hse as [-> | [f ->]].
      * change (singleError_PushError err) with (PushError err).
        rewrite PushError_Empty.
        destruct (AsException err) as [g |]; [right; now exists g | now left].
      * right. now exists f.
    + rewrite exec_bind. exact Hse.
    + left. apply Reset_any.
Qed.

(** C1: the sink is a state machine over the states Empty and Latched.  It
    starts Empty, and every state reached by calls of its methods is Empty or
    Latched; [PushError] in Empty coerces its argument and moves to Latched
    with the coerced failure when that is present, and stays Empty when it is
    nil; [Error] returns nil in Empty and the held failure in Latched, and
    leaves the state as it is; [Reset] moves any state to Empty, and a
    [PushError] after it latches the new value. *)
Theorem singleError_state_machine :
  FirstOnly = Empty /\
  (forall cs : list call,
     exec (do_calls cs) FirstOnly = Empty
     \/ exists f : Exception, exec (do_calls cs) FirstOnly = Latched f) /\
  (forall err : error,
     exec (PushError err) Empty
     = match AsException err with
       | Some f => Latched f
       | None => Empty
       end) /\
  Error Empty = (error_nil, Empty) /\
  (forall f : Exception, Error (Latched f) = (to_CodedError (Some f), Latched f)) /\
  (forall se : singleError, exec Error se = se) /\
  (forall se : singleError, exec singleError_Reset se = Empty) /\
  (forall (se : singleError) (err : error),
     exec (singleError_Reset >> PushError err)%method se
     = match AsException err with
       | Some f => Latched f
       | None => Empty
       end).
Proof.
  repeat match goal with |- _ /\ _ => split end.
  - reflexivity.
  - intros cs. apply do_calls_invariant. now left.
  - apply PushError_Empty.
  - reflexivity.
  - reflexivity.
  - reflexivity.
  - apply Reset_any.
  - intros se err. rewrite exec_bind, Reset_any. apply PushError_Empty.
Qed.

Lemma push_all_Latched (errs : list error) (f : Exception) :
  push_all errs (Latched f) = (tt, Latched f).
Proof.
  induction errs as [| err rest IH]; cbn [push_all].
  - reflexivity.
  - unfold bind. rewrite PushError_Latched. exact IH.
Qed.

(** C2: once the sink is Latched with [f], any finite run of further
    [PushError] calls, whatever their arguments, leaves it Latched with [f],
    and [Error] after the run still returns [f]. *)
Theorem Latched_ignores_pushes (f : Exception) (errs : list error) :
  exec (push_all errs) (Latched f) = Latched f
  /\ eval (push_all errs >> Error)%method (Latched f) = to_CodedError (Some f).
Proof.
  split.
  - unfold exec. now rewrite push_all_Latched.
  - rewrite eval_bind. unfold exec. now rewrite push_all_Latched.
Qed.

(** ** Scenarios of the specification *)

Example Code_String_gas : Code_String ErrorCodeInsufficientGas = "Insufficient gas".
Proof. reflexivity. Qed.

Example Code_Error_gas : Code_Error ErrorCodeInsufficientGas = "Error 4: Insufficient gas".
Proof. reflexivity. Qed.

Example AsException_of_Code :
  AsException (Code_as_error ErrorCodeInsufficientGas)
  = Some {| Exception_Code := ErrorCodeInsufficientGas;
            Exception_Exception := "Error 4: Insufficient gas" |}.
Proof. reflexivity. Qed.

Example latch_scenario :
  let gas := NewException ErrorCodeInsufficientGas "gas exhausted" in
  let overflow := NewException ErrorCodeCallStackOverflow "stack overflow" in
  let s1 := exec (PushError (Exception_AsError None)) FirstOnly in
  let s2 := exec (PushError (to_CodedError gas)) s1 in
  let s3 := exec (PushError (to_CodedError overflow)) s2 in
  let s4 := exec singleError_Reset s3 in
  let s5 := exec (PushError (to_CodedError overflow)) s4 in
  eval Error s1 = error_nil
  /\ eval Error s2 = to_CodedError gas
  /\ eval Error s3 = to_CodedError gas
  /\ eval Error s4 = error_nil
  /\ eval Error s5 = to_CodedError overflow.
Proof. repeat split. Qed.

Example round_trip_equal :
  let f := NewException ErrorCodeExecutionReverted "reverted" in
  Exception_Equal f (Exception_AsError (AsException (Exception_AsError f))) = true.
Proof. reflexivity. Qed.

(** * Further properties of the package *)

(** ** Conversions between [*Exception] and [error] *)

Lemma Exception_Equal_AsError_refl (e : ptr_Exception) :
  Exception_Equal e (Exception_AsError e) = true.
Proof.
  destruct e as [x |]; [| reflexivity].
  unfold Exception_Equal. simpl.
  now rewrite N.eqb_refl, String.eqb_refl.
Qed.

(** X1: [AsError] and [AsException] are inverse on possibly-nil
    [*Exception] values.  [AsError] gives the nil interface exactly for the
    nil pointer (so [err == nil] downstream sees it), coercing the result
    back gives the pointer it came from, the pointer is [Equal] to its own
    error form, and coercing an already coerced value changes nothing. *)
Theorem AsError_AsException_round_trip :
  (forall e : ptr_Exception,
     is_nil (Exception_AsError e) = is_nil_ptr e
     /\ AsException (Exception_AsError e) = e
     /\ Exception_Equal e (Exception_AsError e) = true) /\
  (forall err : error,
     AsException (Exception_AsError (AsException err)) = AsException err
     /\ AsException (to_CodedError (AsException err)) = AsException err).
Proof.
  split.
  - intros e. split; [| split].
    + now destruct e.
    + now destruct e.
    + apply Exception_Equal_AsError_refl.
  - intros err. split.
    + now destruct (AsException err).
    + reflexivity.
Qed.

(** X2: [Equal] compares its receiver with the coercion of its argument:
    for every possibly-nil receiver [e] and every [CodedError] value [ce],
    [e.Equal(ce)] is true exactly when [e] is [AsException(ce)], code and
    message alike.  So a nil receiver equals any argument that coerces to
    nil, such as a coded error with an empty text. *)
Theorem Exception_Equal_iff_coercion (e : ptr_Exception) (ce : error) :
  Exception_Equal e ce = true <-> e = AsException ce.
Proof.
  change (Exception_Equal e ce)
    with (Exception_Equal e (to_CodedError (AsException ce))).
  apply Exception_Equal_decides.
Qed.

(** ** When [Wrap] panics, and what it keeps apart *)



Lemma append_cancel_l (p s t : string) : p ++ s = p ++ t -> s = t.
Proof.
  induction p as [| a p IH]; simpl; intros H.
  - exact H.
  - injection H as H. now apply IH.
Qed.

(** X4: [Wrap] with one prefix keeps failures apart: if wrapping two values
    with the same prefix returns the same result, the two values coerce to
    the same [Exception]. *)
Theorem Wrap_same_prefix_injective
  (err1 err2 : error) (ctx : string) (r : ptr_Exception) :
  Wrap err1 ctx = Ok r -> Wrap err2 ctx = Ok r ->
  AsException err1 = AsException err2.
Proof.
  intros H1 H2.
  destruct (AsException err1) as [f1 |] eqn:Hf1;
    [| rewrite (Wrap_of_absent err1 ctx Hf1) in H1; discriminate].
  destruct (AsException err2) as [f2 |] eqn:Hf2;
    [| rewrite (Wrap_of_absent err2 ctx Hf2) in H2; discriminate].
  rewrite (Wrap_of_present err1 f1 ctx Hf1) in H1.
  rewrite (Wrap_of_present err2 f2 ctx Hf2) in H2.
  rewrite <- H2 in H1. injection H1 as Hc Hm.
  apply append_cancel_l in Hm.
  change (": " ++ Exception_Exception f1 = ": " ++ Exception_Exception f2) in Hm.
  apply append_cancel_l in Hm.
  f_equal. now apply Exception_eta.
Qed.

Lemma Wrap_same_prefix_injective_witness :
  AsException (dyn_CodedError ErrorCodeIllegalWrite "write")
  = AsException
      (to_CodedError
         (Some {| Exception_Code := ErrorCodeIllegalWrite;
                  Exception_Exception := "write" |})).
Proof.
  apply (Wrap_same_prefix_injective _ _ "call"
           (Some {| Exception_Code := ErrorCodeIllegalWrite;
                    Exception_Exception := "call: write" |}));
    reflexivity.
Defined.

(** X5: a returned [Wrap] is always a new failure: its message is longer
    than the message of the coerced argument by the length of the prefix
    plus two, so it is never [Equal] to the failure it wraps. *)
Theorem Wrap_message_grows
  (err : error) (ctx : string) (f g : Exception) :
  AsException err = Some f -> Wrap err ctx = Ok (Some g) ->
  String.length (Exception_Exception g)
  = String.length ctx + 2 + String.length (Exception_Exception f)
  /\ Exception_Equal (Some g) err = false.
Proof.
  intros Hf Hg.
  rewrite (Wrap_of_present err f ctx Hf) in Hg. injection Hg as <-.
  assert (Hlen : String.length (ctx ++ ": " ++ Exception_Exception f)
                 = String.length ctx + 2 + String.length (Exception_Exception f)).
  { rewrite length_append. simpl. lia. }
  split; [exact Hlen |].
  destruct (Exception_Equal _ err) eqn:Heq; [| reflexivity].
  exfalso.
  change (Exception_Equal
            (Some {| Exception_Code := Exception_Code f;
                     Exception_Exception := ctx ++ ": " ++ Exception_Exception f |})
            (to_CodedError (AsException err)) = true) in Heq.
  rewrite Hf in Heq. apply Exception_Equal_decides in Heq.
  apply (f_equal (fun e => String.length (Exception_Error e))) in Heq.
  cbn [Exception_Error Exception_Exception] in Heq.
  rewrite Hlen in Heq. lia.
Qed.

Lemma Wrap_message_grows_witness :
  String.length "call: write" = String.length "call" + 2 + String.length "write"
  /\ Exception_Equal
       (Some {| Exception_Code := ErrorCodeGeneric;
                Exception_Exception := "call: write" |})
       (dyn_error "write") = false.
Proof.
  apply (Wrap_message_grows (dyn_error "write") "call"
           {| Exception_Code := ErrorCodeGeneric; Exception_Exception := "write" |}
           {| Exception_Code := ErrorCodeGeneric;
              Exception_Exception := "call: write" |});
    reflexivity.
Defined.

(** ** Runs of calls on the sink *)

Lemma exec_PushError_state_of (err : error) (e : ptr_Exception) :
  exec (PushError err) (state_of e)
  = state_of (match e with Some f => Some f | None => AsException err end).
Proof.
  destruct e as [f |]; [reflexivity |].
  cbn [state_of]. rewrite PushError_Empty. now destruct (AsException err).
Qed.

Lemma push_all_from_state_of (errs : list error) :
  forall e : ptr_Exception,
    exec (push_all errs) (state_of e)
    = state_of (match e with Some f => Some f | None => first_present errs end).
Proof.
  induction errs as [| err rest IH]; intros e; cbn [push_all first_present].
  - now destruct e.
  - rewrite exec_bind, exec_PushError_state_of, IH.
    destruct e as [f |]; [reflexivity |].
    now destruct (AsException err).
Qed.

(** X6: the first failure wins.  After any run of [PushError] calls on an
    empty sink, the sink holds the coercion of the first pushed value that
    coerces to a present [Exception], whatever was pushed after it, and it is
    empty when no pushed value does; [Error] then returns that failure, or
    the nil interface (not a nil pointer inside an interface) when there is
    none. *)
Theorem push_all_first_wins (errs : list error) :
  exec (push_all errs) FirstOnly = state_of (first_present errs)
  /\ eval (push_all errs >> Error)%method FirstOnly
     = Exception_AsError (first_present errs).
Proof.
  assert (Hstate : exec (push_all errs) FirstOnly = state_of (first_present errs)).
  { exact (push_all_from_state_of errs None). }
  split; [exact Hstate |].
  rewrite eval_bind, Hstate. now destruct (first_present errs).
Qed.

Lemma do_calls_app (cs1 cs2 : list call) (se : singleError) :
  exec (do_calls (cs1 ++ cs2)) se = exec (do_calls cs2) (exec (do_calls cs1) se).
Proof.
  revert se. induction cs1 as [| c rest IH]; intros se.
  - reflexivity.
  - cbn [app do_calls]. now rewrite !exec_bind, IH.
Qed.

(** X7: [Reset] cuts a trace.  Whatever the state of the sink and whatever
    calls came before a [Reset], the state after the whole trace is the state
    that the calls after the [Reset] alone give on a fresh sink. *)
Theorem Reset_cuts_trace (cs1 cs2 : list call) (se : singleError) :
  exec (do_calls (cs1 ++ call_Reset :: cs2)) se
  = exec (do_calls cs2) FirstOnly.
Proof.
  rewrite do_calls_app. cbn [do_calls]. rewrite exec_bind.
  cbn [do_call]. now rewrite Reset_any.
Qed.

(** X8: reading does not disturb the sink.  Deleting every [Error()] call
    from a trace leaves the final state of the trace as it was. *)
Theorem Error_calls_transparent (cs : list call) (se : singleError) :
  exec (do_calls (filter changes_state cs)) se = exec (do_calls cs) se.
Proof.
  revert se. induction cs as [| c rest IH]; intros se.
  - reflexivity.
  - destruct c as [err | |]; cbn [filter changes_state do_calls];
      rewrite ?exec_bind, IH; reflexivity.
Qed.

(** X9: the sink sees a pushed value only through [AsException]: two values
    with the same coercion (such as the nil interface and a nil
    [*Exception]) have the same effect on every state. *)
Theorem PushError_respects_coercion (err1 err2 : error) (se : singleError) :
  AsException err1 = AsException err2 ->
  PushError err1 se = PushError err2 se.
Proof.
  intros Hsame.
  unfold PushError, singleError_Sink, singleError_PushError.
  now rewrite Hsame.
Qed.

Lemma PushError_respects_coercion_witness :
  PushError error_nil FirstOnly = PushError (to_CodedError None) FirstOnly.
Proof.
  apply PushError_respects_coercion. reflexivity.
Defined.

(** ** A bare [Code] as an error *)

Lemma Sprintf_Error_d_s_not_empty (c : Code) (s : string) :
  Sprintf_Error_d_s c s <> "".
Proof. unfold Sprintf_Error_d_s. simpl. discriminate. Qed.

(** X10: a bare [Code] used as an error is never lost.  Its text is never
    empty, so [AsException] coerces it to a present [Exception] with the same
    code and the text of [Code.Error], for declared and undeclared codes
    alike, and pushing it into an empty sink always latches. *)
Theorem Code_as_error_is_present (c : Code) :
  Code_Error c <> ""
  /\ AsException (Code_as_error c)
     = Some {| Exception_Code := c; Exception_Exception := Code_Error c |}
  /\ exec (PushError (Code_as_error c)) FirstOnly
     = Latched {| Exception_Code := c; Exception_Exception := Code_Error c |}.
Proof.
  assert (Hne : Code_Error c <> "") by apply Sprintf_Error_d_s_not_empty.
  assert (Has : AsException (Code_as_error c)
                = Some {| Exception_Code := c; Exception_Exception := Code_Error c |}).
  { change (AsException (Code_as_error c)) with (NewException c (Code_Error c)).
    now apply NewException_present. }
  split; [exact Hne | split; [exact Has |]].
  change FirstOnly with Empty. rewrite PushError_Empty. now rewrite Has.
Qed.

(** ** Reading the debug text back *)

Lemma no_colon_digits (d : Decimal.uint) : no_colon (NilEmpty.string_of_uint d).
Proof.
  induction d; simpl; try exact I; (split; [discriminate | assumption]).
Qed.

Lemma no_colon_decimal (c : Code) : no_colon (decimal c).
Proof.
  unfold decimal, NilZero.string_of_uint.
  destruct (N.to_uint c) eqn:Hd;
    try (rewrite <- Hd; apply no_colon_digits).
  simpl. split; [discriminate | exact I].
Qed.

Lemma parse_decimal_decimal (c : Code) : parse_decimal (decimal c) = Some c.
Proof.
  unfold parse_decimal, decimal.
  destruct (N.to_uint c) eqn:Hd.
  1: { rewrite NilZero.usu_nil. simpl.
       rewrite <- (DecimalN.Unsigned.of_to c), Hd. reflexivity. }
  all: rewrite <- Hd, NilZero.usu by (rewrite Hd; discriminate);
    simpl; now rewrite DecimalN.Unsigned.of_to.
Qed.

Lemma decimal_injective (c1 c2 : Code) : decimal c1 = decimal c2 -> c1 = c2.
Proof.
  intros H. apply (f_equal parse_decimal) in H.
  rewrite !parse_decimal_decimal in H. now injection H.
Qed.

Lemma split_at_colon (s1 : string) :
  forall s2 t1 t2 : string,
    no_colon s1 -> no_colon s2 ->
    s1 ++ String ":" t1 = s2 ++ String ":" t2 ->
    s1 = s2 /\ t1 = t2.
Proof.
  induction s1 as [| a s1 IH]; intros [| b s2] t1 t2 H1 H2 Heq; simpl in *.
  - injection Heq as ->. now split.
  - injection Heq as Hb _. destruct H2 as [Hne _]. now subst b.
  - injection Heq as Ha _. destruct H1 as [Hne _]. now subst a.
  - injection Heq as -> Hrest.
    destruct H1 as [_ H1]. destruct H2 as [_ H2].
    destruct (IH s2 t1 t2 H1 H2 Hrest) as [-> ->]. now split.
Qed.

Lemma Sprintf_Error_d_s_injective (c1 c2 : Code) (s1 s2 : string) :
  Sprintf_Error_d_s c1 s1 = Sprintf_Error_d_s c2 s2 -> c1 = c2 /\ s1 = s2.
Proof.
  unfold Sprintf_Error_d_s. intros H.
  apply (append_cancel_l "Error ") in H.
  apply split_at_colon in H; try apply no_colon_decimal.
  destruct H as [Hd Hs]. injection Hs as ->.
  split; [now apply decimal_injective | reflexivity].
Qed.

(** X11: the debug text of a present [Exception] determines it: two present
    values with the same [String()] have the same code and the same message
    (the decimal code ends at the first colon, whatever the message
    holds). *)
Theorem Exception_String_injective (e1 e2 : Exception) :
  Exception_String (Some e1) = Exception_String (Some e2) -> e1 = e2.
Proof.
  cbn [Exception_String]. intros H.
  assert (H' : Sprintf_Error_d_s (Exception_Code e1) (Exception_Exception e1)
               = Sprintf_Error_d_s (Exception_Code e2) (Exception_Exception e2))
    by congruence.
  apply Sprintf_Error_d_s_injective in H'. destruct H' as [Hc Hm].
  now apply Exception_eta.
Qed.

Lemma Exception_String_injective_witness :
  {| Exception_Code := ErrorCodeInsufficientGas; Exception_Exception := "1: 2" |}
  = {| Exception_Code := 4%N; Exception_Exception := "1: 2" |}.
Proof.
  apply Exception_String_injective. reflexivity.
Defined.

(** X12: the text of a bare [Code] determines the code: [Code.Error] is
    injective over all codes, although every undeclared code has the same
    description. *)
Theorem Code_Error_injective (c1 c2 : Code) :
  Code_Error c1 = Code_Error c2 -> c1 = c2.
Proof.
  unfold Code_Error. intros H.
  now apply Sprintf_Error_d_s_injective in H.
Qed.

Lemma Code_Error_injective_witness :
  ErrorCodeAlreadyVoted = 35%N.
Proof.
  apply Code_Error_injective. reflexivity.
Defined.

(** ** Formatted constructors *)

(** X13: [ErrorCodef] and [Errorf], for any formatting function: the result
    is nil exactly when the formatted text is empty; otherwise it is present
    with the formatted text as its message, and its code is the code given to
    [ErrorCodef], the generic code for [Errorf]. *)
Theorem ErrorCodef_of_formatted_text
  (any : Type) (Sprintf : string -> list any -> string)
  (k : Code) (format : string) (a : list any) :
  (ErrorCodef any Sprintf k format a = None <-> Sprintf format a = "") /\
  (Errorf any Sprintf format a = None <-> Sprintf format a = "") /\
  (Sprintf format a <> "" ->
   ErrorCodef any Sprintf k format a
   = Some {| Exception_Code := k; Exception_Exception := Sprintf format a |}
   /\ Errorf any Sprintf format a
      = Some {| Exception_Code := ErrorCodeGeneric;
                Exception_Exception := Sprintf format a |}).
Proof.
  unfold Errorf, ErrorCodef.
  assert (Hiff : forall c : Code,
             NewException c (Sprintf format a) = None <-> Sprintf format a = "").
  { intros c. split.
    - intros Hnone.
      destruct (String.eqb_spec (Sprintf format a) "") as [Heq | Hne]; [exact Heq |].
      rewrite NewException_present in Hnone by exact Hne. discriminate.
    - intros ->. reflexivity. }
  split; [apply Hiff | split; [apply Hiff |]].
  intros Hne. split; now apply NewException_present.
Qed.

Lemma ErrorCodef_of_formatted_text_witness :
  ErrorCodef unit (fun format _ => format) ErrorCodeInvalidString "bad string" [tt]
  = Some {| Exception_Code := ErrorCodeInvalidString;
            Exception_Exception := "bad string" |}
  /\ Errorf unit (fun format _ => format) "bad string" [tt]
     = Some {| Exception_Code := ErrorCodeGeneric;
               Exception_Exception := "bad string" |}.
Proof.
  apply (proj2 (proj2 (ErrorCodef_of_formatted_text
                         unit (fun format _ => format)
                         ErrorCodeInvalidString "bad string" [tt]))).
  discriminate.
Defined.
